(** * Contact manager (app.py): a shallow embedding and its properties

    The Flask application of [app.py] keeps two tables, [user] and
    [contact], and exposes a handful of routes over them.  The tables are
    modelled as lists of rows in storage order, the routes as functions
    from the state before the request to a response and the state after
    it.  Python's [None], JSON's [null] and SQL's [NULL] are all the [None]
    of [option string]; text is a [string] of 8-bit characters whose case
    mapping is the one of ASCII, which is the case mapping of Python and of
    SQLite alike on ASCII text only. *)

From Stdlib Require Import ZArith Ascii String.
From stdpp Require Import base list gmap strings sorting.

Local Open Scope Z_scope.
Local Open Scope string_scope.

(** ** Text *)

Module Text.

(** [str.lower()] and SQL's [lower()], on one character. *)
Definition lower_char (c : ascii) : ascii :=
  let n := nat_of_ascii c in
  if ((65 <=? n) && (n <=? 90))%nat then ascii_of_nat (n + 32) else c.

Fixpoint lower (s : string) : string :=
  match s with
  | "" => ""
  | String c s' => String (lower_char c) (lower s')
  end.

(** Python's truth value of a [str]: the empty string is false. *)
Definition nonempty (s : string) : bool :=
  match s with "" => false | String _ _ => true end.

(** The two wildcards of SQL's LIKE. *)
Definition percent : ascii := "%"%char.
Definition underscore : ascii := "_"%char.



(** SQLite's [LIKE]: [%] matches any run of characters, [_] matches one
    character, every other character matches itself, letters of ASCII
    without regard to case.  No escape character is in force.  A character
    is one 8-bit unit of the text here, one UTF-8 character in SQLite; the
    two agree on ASCII text. *)
Fixpoint like (pat : string) : string -> bool :=
  match pat with
  | "" => fun s => negb (nonempty s)
  | String c pat' =>
      if Ascii.eqb c percent then
        fix star (s : string) : bool :=
          like pat' s ||
          match s with
          | "" => false
          | String _ s' => star s'
          end
      else if Ascii.eqb c underscore then
        fun s => match s with
                 | "" => false
                 | String _ s' => like pat' s'
                 end
      else
        fun s => match s with
                 | "" => false
                 | String d s' =>
                     Ascii.eqb (lower_char c) (lower_char d) && like pat' s'
                 end
  end.

(** [column.ilike(pattern)] as SQLAlchemy renders it for SQLite,
    [lower(column) LIKE lower(pattern)]; a NULL column gives NULL, which
    a WHERE clause does not accept. *)
Definition ilike (column : option string) (pattern : string) : bool :=
  match column with
  | None => false
  | Some s => like (lower pattern) (lower s)
  end.

(** [t] is a prefix of [s], letters compared without regard to case. *)
Fixpoint prefix_ci (t s : string) : bool :=
  match t, s with
  | "", _ => true
  | String _ _, "" => false
  | String c t', String d s' =>
      Ascii.eqb (lower_char c) (lower_char d) && prefix_ci t' s'
  end.

(** [t] occurs in [s] as a substring, without regard to case: the
    reading of "contains [t] as a case-insensitive substring". *)
Fixpoint contains_ci (t s : string) : bool :=
  prefix_ci t s ||
  match s with
  | "" => false
  | String _ s' => contains_ci t s'
  end.

End Text.

(** ** The tables *)

(** A column value as Python sees it: [None] or a [str]. *)
Abbreviation value := (option string).

(** The truth value Python gives to such a value in [if v] and [not v]. *)
Definition truthy (v : value) : bool :=
  match v with
  | None => false
  | Some s => Text.nonempty s
  end.

Module User.
Record t := make { id : Z; username : string; password_hash : string }.
End User.

Module Contact.
Record t := make {
  id : Z;
  name : value;
  phone : value;
  email : value;
  user_id : Z
}.

(** The JSON object a contact is sent as: the owner is left out. *)
Record dict := make_dict {
  d_id : Z;
  d_name : value;
  d_phone : value;
  d_email : value
}.

Definition to_dict (self : t) : dict :=
  {| d_id := id self; d_name := name self;
     d_phone := phone self; d_email := email self |}.
End Contact.

Record database := Database {
  users : list User.t;
  contacts : list Contact.t
}.

Definition empty_db : database := {| users := []; contacts := [] |}.

(** The body of a JSON request: [request.json] is [None] or an object whose
    members are strings or [null], the shape [{name, phone?, email?}] the
    API takes. *)
Abbreviation payload := (gmap string value).

(** [not data] *)
Definition falsy_data (data : option payload) : bool :=
  match data with
  | None => true
  | Some d => bool_decide (d = ∅)
  end.

(** [data.get(key)] and [data.get(key, default)]; a request without a body
    reaches neither. *)
Definition dict_get (d : payload) (key : string) : value :=
  default None (d !! key).

Definition dict_get_default (d : payload) (key : string) (dflt : value) : value :=
  default dflt (d !! key).

(** ** Queries *)

Module Query.

(** [Contact.query.filter_by(user_id=uid)] *)
Definition filter_by_user (uid : Z) (tbl : list Contact.t) : list Contact.t :=
  filter (fun c => Contact.user_id c = uid) tbl.

(** [Contact.query.filter_by(id=contact_id, user_id=uid)] *)
Definition filter_by_id_user (contact_id uid : Z) (tbl : list Contact.t)
  : list Contact.t :=
  filter (fun c => Contact.id c = contact_id /\ Contact.user_id c = uid) tbl.

(** [User.query.filter_by(username=username)] *)
Definition filter_by_username (username : string) (tbl : list User.t)
  : list User.t :=
  filter (fun u => User.username u = username) tbl.

(** [.first()] *)
Definition first {A} (rows : list A) : option A := head rows.

(** [.count()] *)
Definition count {A} (rows : list A) : nat := length rows.

(** The three [ilike] conditions of the search, joined by [db.or_]. *)
Definition matches (search_term : string) (c : Contact.t) : bool :=
  let pattern := "%" +:+ search_term +:+ "%" in
  Text.ilike (Contact.name c) pattern
  || Text.ilike (Contact.phone c) pattern
  || Text.ilike (Contact.email c) pattern.

(** The order of [ORDER BY name]: NULL sorts first, text by its bytes. *)
Definition value_le (a b : value) : Prop :=
  match a, b with
  | None, _ => True
  | Some _, None => False
  | Some x, Some y => String.leb x y = true
  end.

Definition name_le (c1 c2 : Contact.t) : Prop :=
  value_le (Contact.name c1) (Contact.name c2).

#[global] Instance value_le_dec a b : Decision (value_le a b).
Proof. destruct a, b; simpl; apply _. Defined.

#[global] Instance name_le_dec c1 c2 : Decision (name_le c1 c2).
Proof. unfold name_le; apply _. Defined.

(** [.order_by(Contact.name)]; SQL leaves the order among rows of equal
    name open. *)
Definition order_by_name (rows : list Contact.t) : list Contact.t :=
  merge_sort name_le rows.

(** The rowid SQLite gives to an inserted row whose INTEGER PRIMARY KEY
    is left out: one more than the largest in use, 1 in an empty table. *)
Definition next_rowid (ids : list Z) : Z :=
  1 + foldr Z.max 0 ids.

(** [db.session.add(row)] followed by [commit]: the row goes to the end
    of the table. *)
Definition insert_contact (c : Contact.t) (tbl : list Contact.t)
  : list Contact.t :=
  tbl ++ [c].

(** A [commit] after attributes of [c] were assigned: the UPDATE is
    keyed by the primary key. *)
Definition update_contact_row (c : Contact.t) (tbl : list Contact.t)
  : list Contact.t :=
  (fun r => if decide (Contact.id r = Contact.id c) then c else r) <$> tbl.

(** [db.session.delete(c)] followed by [commit]: the DELETE is keyed by
    the primary key. *)
Definition delete_contact_row (c : Contact.t) (tbl : list Contact.t)
  : list Contact.t :=
  filter (fun r => Contact.id r <> Contact.id c) tbl.

End Query.

(** ** Responses *)

Inductive json :=
  | JContact (c : Contact.dict)
  | JContacts (cs : list Contact.dict)
  | JError (error : string)
  | JMessage (message : string)
  | JCount (count : nat).

Inductive response :=
  | Jsonify (body : json) (status : Z)
  | Redirect (endpoint : string)
  | RenderTemplate (template : string).

Definition status_of (r : response) : Z :=
  match r with
  | Jsonify _ s => s
  | Redirect _ => 302
  | RenderTemplate _ => 200
  end.

Definition not_found : response :=
  Jsonify (JError "Contact not found or access denied") 404.

Definition name_required : response :=
  Jsonify (JError "Name is a required field.") 400.

(** ** The contact routes

    Each takes [uid], the [current_user.id] of the request. *)

(** GET /api/contacts *)
Definition get_contacts (uid : Z) (search : option string) (db : database)
  : response :=
  let search_term := Text.lower (default "" search) in
  let query := Query.filter_by_user uid (contacts db) in
  let query :=
    if Text.nonempty search_term
    then filter (fun c => Query.matches search_term c = true) query
    else query in
  let contacts := Query.order_by_name query in
  Jsonify (JContacts (Contact.to_dict <$> contacts)) 200.

(** GET /api/contacts/<contact_id>, for a [contact_id] that SQLite can
    bind as a query parameter (see [get_contact_route] for the others). *)
Definition get_contact (uid : Z) (contact_id : Z) (db : database) : response :=
  match Query.first (Query.filter_by_id_user contact_id uid (contacts db)) with
  | Some contact => Jsonify (JContact (Contact.to_dict contact)) 200
  | None => not_found
  end.

(** POST /api/contacts *)
Definition add__contact (uid : Z) (data : option payload) (db : database)
  : response * database :=
  match data with
  | Some d =>
      if falsy_data data || negb (truthy (dict_get d "name"))
      then (name_required, db)
      else
        let new_contact :=
          {| Contact.id := Query.next_rowid (Contact.id <$> contacts db);
             Contact.name := dict_get d "name";
             Contact.phone := dict_get d "phone";
             Contact.email := dict_get d "email";
             Contact.user_id := uid |} in
        (Jsonify (JContact (Contact.to_dict new_contact)) 201,
         {| users := users db;
            contacts := Query.insert_contact new_contact (contacts db) |})
  | None => (name_required, db)
  end.

(** PUT /api/contacts/<contact_id>, for a [contact_id] that SQLite can
    bind as a query parameter (see [update_contact_route] for the
    others). *)
Definition update_contact (uid : Z) (contact_id : Z) (data : option payload)
  (db : database) : response * database :=
  match Query.first (Query.filter_by_id_user contact_id uid (contacts db)) with
  | None => (not_found, db)
  | Some contact =>
      match data with
      | Some d =>
          if falsy_data data || negb (truthy (dict_get d "name"))
          then (name_required, db)
          else
            let contact :=
              {| Contact.id := Contact.id contact;
                 Contact.name := dict_get_default d "name" (Contact.name contact);
                 Contact.phone := dict_get_default d "phone" (Contact.phone contact);
                 Contact.email := dict_get_default d "email" (Contact.email contact);
                 Contact.user_id := Contact.user_id contact |} in
            (Jsonify (JContact (Contact.to_dict contact)) 200,
             {| users := users db;
                contacts := Query.update_contact_row contact (contacts db) |})
      | None => (name_required, db)
      end
  end.

(** DELETE /api/contacts/<contact_id>, for a [contact_id] that SQLite can
    bind as a query parameter (see [delete_contact_route] for the
    others). *)
Definition delete_contact (uid : Z) (contact_id : Z) (db : database)
  : response * database :=
  match Query.first (Query.filter_by_id_user contact_id uid (contacts db)) with
  | None => (not_found, db)
  | Some contact =>
      (Jsonify (JMessage "Contact deleted successfully") 200,
       {| users := users db;
          contacts := Query.delete_contact_row contact (contacts db) |})
  end.

(** GET /api/contacts/count *)
Definition get_contacts_count (uid : Z) (db : database) : response :=
  let count := Query.count (Query.filter_by_user uid (contacts db)) in
  Jsonify (JCount count) 200.

(** ** Identifiers SQLite cannot bind

    The three routes above start with a query that has [contact_id] as a
    parameter.  SQLite's INTEGER is 64 bits wide and signed, and the driver
    raises [OverflowError] for a Python [int] outside that range; the
    exception leaves the view before anything else runs, and Flask answers
    it with 500. *)

Definition sqlite_integer (n : Z) : bool :=
  ((- 2 ^ 63 <=? n) && (n <? 2 ^ 63))%Z.

(** What a view comes to: a value it returns, or an exception it raises. *)
Inductive outcome (A : Type) :=
  | Returned (a : A)
  | Raised (exception : string).

Arguments Returned {A} a.
Arguments Raised {A} exception.

Definition binding (contact_id : Z) {A} (view : A) : outcome A :=
  if sqlite_integer contact_id then Returned view else Raised "OverflowError".



Definition delete_contact_route (uid contact_id : Z) (db : database)
  : outcome (response * database) :=
  binding contact_id (delete_contact uid contact_id db).


(** ** Sessions and login *)

(** What flask-login and [flash] keep in the client's session: the id of
    the logged-in user, and the messages waiting to be shown. *)
Record session := Session {
  session_user : option Z;
  flashes : list (string * string)
}.

Definition anonymous : session := {| session_user := None; flashes := [] |}.

(** [flash(message, category)] *)
Definition flash (message category : string) (s : session) : session :=
  {| session_user := session_user s;
     flashes := flashes s ++ [(message, category)] |}.

(** [login_user(user)] *)
Definition login_user (user : User.t) (s : session) : session :=
  {| session_user := Some (User.id user); flashes := flashes s |}.

(** [logout_user()] *)
Definition logout_user (s : session) : session :=
  {| session_user := None; flashes := flashes s |}.

(** [load_user]: [User.query.get(int(user_id))] *)
Definition load_user (user_id : Z) (db : database) : option User.t :=
  Query.first (filter (fun u => User.id u = user_id) (users db)).

(** [current_user], [None] standing for the anonymous user. *)
Definition current_user (s : session) (db : database) : option User.t :=
  match session_user s with
  | Some user_id => load_user user_id db
  | None => None
  end.

Definition is_authenticated (s : session) (db : database) : bool :=
  bool_decide (is_Some (current_user s db)).

(** [@login_required]: an anonymous request is sent to the login view. *)
Definition login_required {A} (view : User.t -> A) (unauthorized : A)
  (s : session) (db : database) : A :=
  match current_user s db with
  | Some user => view user
  | None => unauthorized
  end.

Inductive method := GET | POST.

Section Auth.

(** werkzeug's two functions.  [generate_password_hash] draws a salt of
    its own; here the salt is an argument. *)
Variable generate_password_hash : string -> string -> string.
Variable check_password_hash : string -> string -> bool.

(** [User.set_password] is [generate_password_hash] on a new row;
    [User.check_password]: *)
Definition check_password (self : User.t) (password : string) : bool :=
  check_password_hash (User.password_hash self) password.

(** /login *)
Definition login (m : method) (username password : string)
  (next : option string) (s : session) (db : database)
  : response * session :=
  if is_authenticated s db then (Redirect "index", s)
  else
    match m with
    | POST =>
        let user :=
          Query.first (Query.filter_by_username username (users db)) in
        match user with
        | Some u =>
            if check_password u password
            then
              let next_page := next in
              (Redirect (if truthy next_page then default "" next_page
                         else "index"),
               login_user u s)
            else
              (RenderTemplate "login.html",
               flash "Invalid username or password. Please try again."
                 "danger" s)
        | None =>
            (RenderTemplate "login.html",
             flash "Invalid username or password. Please try again."
               "danger" s)
        end
    | GET => (RenderTemplate "login.html", s)
    end.

(** /signup *)
Definition signup (m : method) (username password salt : string)
  (s : session) (db : database) : response * session * database :=
  if is_authenticated s db then (Redirect "index", s, db)
  else
    match m with
    | POST =>
        if negb (Text.nonempty username) || negb (Text.nonempty password)
        then
          (Redirect "signup",
           flash "Username and password are required." "warning" s, db)
        else
          let existing_user :=
            Query.first (Query.filter_by_username username (users db)) in
          match existing_user with
          | Some _ =>
              (Redirect "signup",
               flash "Username already exists. Please choose a different one."
                 "warning" s, db)
          | None =>
              let new_user :=
                {| User.id := Query.next_rowid (User.id <$> users db);
                   User.username := username;
                   User.password_hash :=
                     generate_password_hash salt password |} in
              (Redirect "login",
               flash "Account created successfully! Please log in."
                 "success" s,
               {| users := users db ++ [new_user];
                  contacts := contacts db |})
          end
    | GET => (RenderTemplate "signup.html", s, db)
    end.

End Auth.

(** /logout *)
Definition logout (s : session) (db : database) : response * session :=
  login_required
    (fun _ =>
       (Redirect "login",
        flash "You have been logged out." "success" (logout_user s)))
    (Redirect "login", flash "Please log in to access this page." "message" s)
    s db.

(** ** The JSON API as one transition function *)

Inductive api_request :=
  | GetContacts (search : option string)
  | GetContact (contact_id : Z)
  | AddContact (data : option payload)
  | UpdateContact (contact_id : Z) (data : option payload)
  | DeleteContact (contact_id : Z)
  | GetContactsCount.

(** The route of a request, run for the user [uid]. *)
Definition handle (uid : Z) (r : api_request) (db : database)
  : response * database :=
  match r with
  | GetContacts search => (get_contacts uid search db, db)
  | GetContact contact_id => (get_contact uid contact_id db, db)
  | AddContact data => add__contact uid data db
  | UpdateContact contact_id data => update_contact uid contact_id data db
  | DeleteContact contact_id => delete_contact uid contact_id db
  | GetContactsCount => (get_contacts_count uid db, db)
  end.

(** A request as the server receives it, behind [@login_required]. *)
Definition api (r : api_request) (s : session) (db : database)
  : response * database :=
  login_required (fun user => handle (User.id user) r db)
    (Redirect "login", db) s db.

(** The states the store can be in: the two tables, empty at first,
    changed by sign-ups and by contact requests. *)
Inductive reachable : database -> Prop :=
  | reachable_init : reachable empty_db
  | reachable_signup gen m username password salt s db :
      reachable db ->
      reachable (signup gen m username password salt s db).2
  | reachable_handle uid r db :
      reachable db -> reachable (handle uid r db).2.

(** ** What "the name is empty or absent" means for a request body *)

Definition name_missing (data : option payload) : Prop :=
  match data with
  | None => True
  | Some d =>
      d !! "name" = None \/ d !! "name" = Some None \/ d !! "name" = Some (Some "")
  end.

#[global] Instance name_missing_dec data : Decision (name_missing data).
Proof. destruct data; simpl; apply _. Defined.

(** A contact with identifier [contact_id] that [uid] owns. *)
Definition owned_by (uid contact_id : Z) (c : Contact.t) : Prop :=
  Contact.id c = contact_id /\ Contact.user_id c = uid.

(** The constraints of the schema: both primary keys and the username are
    unique. *)
Record well_formed (db : database) : Prop := {
  wf_contact_ids : NoDup (Contact.id <$> contacts db);
  wf_user_ids : NoDup (User.id <$> users db);
  wf_usernames : NoDup (User.username <$> users db)
}.

(** What the routes require of every row they store: a contact has a
    non-empty name, a user a non-empty username, and identifiers start
    at 1. *)
Definition rows_valid (db : database) : Prop :=
  (forall c, c ∈ contacts db ->
             truthy (Contact.name c) = true /\ 1 <= Contact.id c) /\
  (forall u, u ∈ users db -> User.username u <> "" /\ 1 <= User.id u).

(** ** Search, in the words of its description *)


(** A field, and a contact, containing [s] as a case-insensitive
    substring; a field that is [null] contains nothing. *)
Definition field_contains (s : string) (v : value) : bool :=
  match v with
  | Some f => Text.contains_ci s f
  | None => false
  end.

Definition contact_contains (s : string) (c : Contact.t) : bool :=
  field_contains s (Contact.name c)
  || field_contains s (Contact.phone c)
  || field_contains s (Contact.email c).

(** ** Example stores *)

(** A small store used to exercise the statements below: user 1 owns
    contact 1, "Bob". *)
Definition bob_payload : payload :=
  <["name" := Some "Bob"]> (<["phone" := Some "555-1111"]> ∅).

Definition bob : Contact.t :=
  {| Contact.id := 1; Contact.name := Some "Bob";
     Contact.phone := Some "555-1111"; Contact.email := None;
     Contact.user_id := 1 |}.

Definition bob_db : database := (handle 1 (AddContact (Some bob_payload)) empty_db).2.

(** A stand-in for werkzeug's pair of functions, to run the statements
    about login and sign-up on an example. *)
Definition toy_generate (salt password : string) : string :=
  "toy$" +:+ salt +:+ "$" +:+ password.

Definition toy_check (pwhash password : string) : bool :=
  String.eqb pwhash (toy_generate "s" password).

Definition alice : User.t :=
  {| User.id := 1; User.username := "alice";
     User.password_hash := "toy$s$pw123" |}.

Definition alice_db : database :=
  (signup toy_generate POST "alice" "pw123" "s" anonymous empty_db).2.

(** * Properties *)

(** ** Queries *)

Lemma first_filter_None {A} (P : A -> Prop) `{!forall x, Decision (P x)}
  (l : list A) :
  Query.first (filter P l) = None <-> forall x, x ∈ l -> ~ P x.
Proof.
  unfold Query.first. rewrite head_None. split.
  - intros Hnil x Hx HP. eapply filter_nil_not_elem_of; eauto.
  - intros Hall. induction l as [|x l IH]; [done|].
    rewrite filter_cons_False; [|apply Hall; left].
    apply IH. intros y Hy. apply Hall. by right.
Qed.

Lemma first_filter_Some {A} (P : A -> Prop) `{!forall x, Decision (P x)}
  (l : list A) (x : A) :
  Query.first (filter P l) = Some x -> x ∈ l /\ P x.
Proof.
  unfold Query.first. intros Hx%head_Some_elem_of.
  apply list_elem_of_filter in Hx. tauto.
Qed.

Lemma first_filter_is_Some {A} (P : A -> Prop) `{!forall x, Decision (P x)}
  (l : list A) (x : A) :
  x ∈ l -> P x -> is_Some (Query.first (filter P l)).
Proof.
  intros Hx HP. destruct (Query.first (filter P l)) eqn:E; [by eexists|].
  rewrite first_filter_None in E. by destruct (E x Hx).
Qed.

Lemma next_rowid_above (ids : list Z) (x : Z) :
  x ∈ ids -> x < Query.next_rowid ids.
Proof.
  unfold Query.next_rowid. induction 1 as [x l|x y l _ IH]; simpl; lia.
Qed.

Lemma next_rowid_fresh (ids : list Z) : Query.next_rowid ids ∉ ids.
Proof. intros H%next_rowid_above. lia. Qed.

Lemma update_contact_row_ids c tbl :
  Contact.id <$> Query.update_contact_row c tbl = Contact.id <$> tbl.
Proof.
  unfold Query.update_contact_row. rewrite <- list_fmap_compose.
  apply list_fmap_ext. intros i r _. simpl. by case_decide.
Qed.

Lemma delete_contact_row_ids c tbl :
  Contact.id <$> Query.delete_contact_row c tbl
  = filter (fun i => i <> Contact.id c) (Contact.id <$> tbl).
Proof.
  unfold Query.delete_contact_row.
  induction tbl as [|r tbl IH]; [done|].
  rewrite fmap_cons, !filter_cons. simpl.
  case_decide; simpl; by rewrite <- IH.
Qed.

(** ** The schema constraints hold in every reachable state *)

Lemma well_formed_empty : well_formed empty_db.
Proof. split; simpl; constructor. Qed.

Lemma well_formed_add uid data db :
  well_formed db -> well_formed (add__contact uid data db).2.
Proof.
  intros [Hc Hu Hn]. unfold add__contact.
  destruct data as [d|]; [|done].
  destruct (falsy_data _ || _); [done|].
  split; simpl; [|done..].
  unfold Query.insert_contact. rewrite fmap_app. simpl.
  apply NoDup_app. split_and!; [done| |apply NoDup_singleton].
  intros x Hx ->%list_elem_of_singleton. by apply next_rowid_fresh in Hx.
Qed.

Lemma well_formed_update uid contact_id data db :
  well_formed db -> well_formed (update_contact uid contact_id data db).2.
Proof.
  intros [Hc Hu Hn]. unfold update_contact.
  destruct (Query.first _); [|done].
  destruct data as [d|]; [|done].
  destruct (falsy_data _ || _); [done|].
  split; simpl; [|done..].
  by rewrite update_contact_row_ids.
Qed.

Lemma well_formed_delete uid contact_id db :
  well_formed db -> well_formed (delete_contact uid contact_id db).2.
Proof.
  intros [Hc Hu Hn]. unfold delete_contact.
  destruct (Query.first _); [|done].
  split; simpl; [|done..].
  rewrite delete_contact_row_ids. by apply NoDup_filter.
Qed.

Lemma well_formed_handle uid r db :
  well_formed db -> well_formed (handle uid r db).2.
Proof.
  destruct r; simpl;
    auto using well_formed_add, well_formed_update, well_formed_delete.
Qed.

Lemma well_formed_signup gen m username password salt s db :
  well_formed db -> well_formed (signup gen m username password salt s db).2.
Proof.
  intros [Hc Hu Hn]. unfold signup.
  destruct (is_authenticated s db); [done|].
  destruct m; [done|].
  destruct (negb _ || negb _); [done|].
  destruct (Query.first _) eqn:E; [done|].
  unfold Query.filter_by_username in E. rewrite first_filter_None in E.
  split; simpl; [done|..]; rewrite fmap_app; simpl;
    (apply NoDup_app; split_and!; [done| |apply NoDup_singleton]);
    intros x Hx ->%list_elem_of_singleton.
  - by apply next_rowid_fresh in Hx.
  - apply list_elem_of_fmap in Hx as (u & Hu' & Hin). by eapply E.
Qed.

Lemma reachable_well_formed db : reachable db -> well_formed db.
Proof.
  induction 1;
    auto using well_formed_empty, well_formed_signup, well_formed_handle.
Qed.

(** ** Owner scoping *)

Lemma NoDup_fmap_eq {A B} (f : A -> B) (l : list A) (x y : A) :
  NoDup (f <$> l) -> x ∈ l -> y ∈ l -> f x = f y -> x = y.
Proof.
  induction l as [|z l IH]; [by intros _ ?%elem_of_nil|].
  rewrite fmap_cons, NoDup_cons.
  intros [Hz Hl] [->|Hx]%elem_of_cons [->|Hy]%elem_of_cons Hf; auto.
  - destruct Hz. rewrite Hf. by apply list_elem_of_fmap_2.
  - destruct Hz. rewrite <- Hf. by apply list_elem_of_fmap_2.
Qed.

Lemma foreign_contact_not_found db c uid :
  well_formed db -> c ∈ contacts db -> Contact.user_id c <> uid ->
  Query.first (Query.filter_by_id_user (Contact.id c) uid (contacts db)) = None.
Proof.
  intros [Hc _ _] Hin Hne. unfold Query.filter_by_id_user.
  apply first_filter_None. intros x Hx [Hid Hu].
  assert (x = c) as -> by eauto using NoDup_fmap_eq.
  done.
Qed.

Lemma bob_db_contacts : contacts bob_db = [bob].
Proof. reflexivity. Qed.

Lemma bob_db_reachable : reachable bob_db.
Proof. apply reachable_handle, reachable_init. Qed.

(** C1. Ownership isolation: in every reachable store, a contact [c] owned
    by [A] is out of reach of any other user [B]: reading it, updating it
    (with any body) and deleting it under [B] all answer 404, and the store,
    hence [c], is left as it was. *)
Theorem ownership_isolation (A B : Z) (c : Contact.t) (data : option payload)
  (db : database) :
  reachable db -> c ∈ contacts db -> Contact.user_id c = A -> A <> B ->
  get_contact B (Contact.id c) db = not_found /\
  update_contact B (Contact.id c) data db = (not_found, db) /\
  delete_contact B (Contact.id c) db = (not_found, db).
Proof.
  intros Hr%reachable_well_formed Hin HA HAB.
  assert (Query.first
            (Query.filter_by_id_user (Contact.id c) B (contacts db)) = None)
    as Hnone by (apply foreign_contact_not_found; congruence).
  unfold get_contact, update_contact, delete_contact.
  by rewrite Hnone.
Qed.

Lemma ownership_isolation_witness :
  get_contact 2 1 bob_db = not_found /\
  update_contact 2 1 (Some bob_payload) bob_db = (not_found, bob_db) /\
  delete_contact 2 1 bob_db = (not_found, bob_db).
Proof.
  apply (ownership_isolation 1 2 bob (Some bob_payload) bob_db).
  - exact bob_db_reachable.
  - rewrite bob_db_contacts. apply list_elem_of_here.
  - reflexivity.
  - lia.
Defined.

(** ** Counting *)

Lemma order_by_name_length rows :
  length (Query.order_by_name rows) = length rows.
Proof.
  unfold Query.order_by_name. apply Permutation_length, merge_sort_Permutation.
Qed.

(** C3. In every store, reachable or not, the number [count(owner)] answers
    is the length of the list that [list(owner)] answers when no search
    term is given, or an empty one. *)
Theorem count_is_length_of_list (uid : Z) (db : database) :
  exists cs : list Contact.dict,
    get_contacts uid None db = Jsonify (JContacts cs) 200 /\
    get_contacts uid (Some "") db = Jsonify (JContacts cs) 200 /\
    get_contacts_count uid db = Jsonify (JCount (length cs)) 200.
Proof.
  eexists. split_and!; [reflexivity..|].
  unfold get_contacts_count, Query.count. simpl.
  by rewrite length_fmap, order_by_name_length.
Qed.

(** ** Errors change nothing *)

(** C10. Error atomicity: whenever a contact request is answered with 404
    or 400, the store after the request is the store before it. *)
Theorem error_leaves_store_unchanged (uid : Z) (r : api_request) (db : database) :
  status_of (handle uid r db).1 = 404 \/ status_of (handle uid r db).1 = 400 ->
  (handle uid r db).2 = db.
Proof.
  destruct r as [search|cid|data|cid data|cid|]; simpl; try done.
  - unfold add__contact. destruct data as [d|]; [|done].
    destruct (falsy_data _ || _); [done|]. simpl. intros [?|?]; lia.
  - unfold update_contact. destruct (Query.first _); [|done].
    destruct data as [d|]; [|done].
    destruct (falsy_data _ || _); [done|]. simpl. intros [?|?]; lia.
  - unfold delete_contact. destruct (Query.first _); [|done].
    simpl. intros [?|?]; lia.
Qed.

Lemma error_leaves_store_unchanged_witness :
  status_of (handle 1 (UpdateContact 1 (Some ∅)) bob_db).1 = 400 /\
  (handle 1 (UpdateContact 1 (Some ∅)) bob_db).2 = bob_db.
Proof.
  split; [reflexivity|].
  apply (error_leaves_store_unchanged 1 (UpdateContact 1 (Some ∅)) bob_db).
  right. reflexivity.
Defined.

(** ** Validation of the request body *)






(** ** Create, then read *)




(** ** Update *)

Lemma find_owned_None (uid contact_id : Z) (tbl : list Contact.t) :
  (forall c, c ∈ tbl -> ~ owned_by uid contact_id c) ->
  Query.first (Query.filter_by_id_user contact_id uid tbl) = None.
Proof. intros Hnone. by apply first_filter_None. Qed.

Lemma find_owned_Some (uid contact_id : Z) (tbl : list Contact.t) (c : Contact.t) :
  c ∈ tbl -> owned_by uid contact_id c ->
  exists c0, Query.first (Query.filter_by_id_user contact_id uid tbl) = Some c0
             /\ c0 ∈ tbl /\ owned_by uid contact_id c0.
Proof.
  intros Hin Hown. unfold Query.filter_by_id_user.
  destruct (first_filter_is_Some
              (fun c => Contact.id c = contact_id /\ Contact.user_id c = uid)
              tbl c Hin Hown) as [c0 Hc0].
  exists c0. split; [done|]. by apply first_filter_Some in Hc0.
Qed.

Lemma owned_contact_found db c uid contact_id :
  well_formed db -> c ∈ contacts db -> owned_by uid contact_id c ->
  Query.first (Query.filter_by_id_user contact_id uid (contacts db)) = Some c.
Proof.
  intros [Hc _ _] Hin Hown.
  destruct (find_owned_Some uid contact_id (contacts db) c Hin Hown)
    as (x & -> & Hxin & Hxid & _).
  f_equal. destruct Hown as [Hid _].
  apply (NoDup_fmap_eq Contact.id (contacts db)); congruence.
Qed.

Lemma first_after_update (c' : Contact.t) (tbl : list Contact.t) (uid : Z) :
  (exists r, r ∈ tbl /\ Contact.id r = Contact.id c') ->
  Contact.user_id c' = uid ->
  Query.first
    (Query.filter_by_id_user (Contact.id c') uid
       (Query.update_contact_row c' tbl)) = Some c'.
Proof.
  intros Hex Hu.
  unfold Query.first, Query.filter_by_id_user, Query.update_contact_row.
  induction tbl as [|r tbl IH]; [by destruct Hex as (? & ?%elem_of_nil & _)|].
  rewrite fmap_cons. destruct (decide (Contact.id r = Contact.id c')) as [E|E].
  - by rewrite filter_cons_True.
  - rewrite filter_cons_False by tauto. apply IH.
    destruct Hex as (r' & [->|Hin]%elem_of_cons & Hid); [done|eauto].
Qed.





Lemma update_contact_row_owners (c c' : Contact.t) (tbl : list Contact.t) :
  NoDup (Contact.id <$> tbl) -> c ∈ tbl ->
  Contact.id c' = Contact.id c -> Contact.user_id c' = Contact.user_id c ->
  Contact.user_id <$> Query.update_contact_row c' tbl = Contact.user_id <$> tbl.
Proof.
  intros Hnd Hin Hid Hu. unfold Query.update_contact_row.
  rewrite <- list_fmap_compose. apply list_fmap_ext. intros i r Hr. simpl.
  case_decide as E; [|done].
  assert (r = c) as ->; [|done].
  apply (NoDup_fmap_eq Contact.id tbl); [done| |done|congruence].
  by eapply list_elem_of_lookup_2.
Qed.

Lemma update_contact_row_elem (c' : Contact.t) (tbl : list Contact.t) :
  (exists r, r ∈ tbl /\ Contact.id r = Contact.id c') ->
  c' ∈ Query.update_contact_row c' tbl.
Proof.
  intros (r & Hin & Hid). unfold Query.update_contact_row.
  apply list_elem_of_fmap. exists r. by rewrite decide_True.
Qed.

Lemma update_contact_row_others (c' r : Contact.t) (tbl : list Contact.t) :
  r ∈ tbl -> Contact.id r <> Contact.id c' ->
  r ∈ Query.update_contact_row c' tbl.
Proof.
  intros Hin Hid. unfold Query.update_contact_row.
  apply list_elem_of_fmap. exists r. by rewrite decide_False.
Qed.

(** C7. Frame of [update], in every reachable store.  No update, successful
    or not, changes the identifier or the owner of any row.  When the
    update of the caller's contact [c] succeeds, the record that is stored
    and returned has the identifier and the owner of [c], keeps the phone
    of [c] if the body has no phone and the email of [c] if the body has
    no email, and every other contact is still stored as it was. *)
Theorem update_frame (uid cid : Z) (data : option payload) (db : database) :
  reachable db ->
  (Contact.id <$> contacts (update_contact uid cid data db).2
   = Contact.id <$> contacts db) /\
  (Contact.user_id <$> contacts (update_contact uid cid data db).2
   = Contact.user_id <$> contacts db) /\
  (forall c, c ∈ contacts db -> owned_by uid cid c ->
   status_of (update_contact uid cid data db).1 = 200 ->
   exists c' : Contact.t,
     (update_contact uid cid data db).1
     = Jsonify (JContact (Contact.to_dict c')) 200 /\
     c' ∈ contacts (update_contact uid cid data db).2 /\
     Contact.id c' = Contact.id c /\
     Contact.user_id c' = Contact.user_id c /\
     (forall d, data = Some d -> d !! "phone" = None ->
                Contact.phone c' = Contact.phone c) /\
     (forall d, data = Some d -> d !! "email" = None ->
                Contact.email c' = Contact.email c) /\
     (forall r, r ∈ contacts db -> r <> c ->
                r ∈ contacts (update_contact uid cid data db).2)).
Proof.
  intros Hwf%reachable_well_formed. pose proof Hwf as [Hnd _ _].
  unfold update_contact.
  destruct (Query.first _) as [c0|] eqn:E0.
  2:{ split_and!; [done..|].
      intros c Hin Hown. by rewrite (owned_contact_found db c uid cid) in E0. }
  unfold Query.filter_by_id_user in E0.
  pose proof (first_filter_Some _ _ _ E0) as [Hin0 [Hid0 Hu0]].
  destruct data as [d|].
  2:{ split_and!; [done..|]. simpl. intros; lia. }
  destruct (falsy_data _ || _).
  { split_and!; [done..|]. simpl. intros; lia. }
  set (c' := Contact.make _ _ _ _ _). cbn [fst snd contacts].
  split_and!.
  - apply update_contact_row_ids.
  - by apply (update_contact_row_owners c0).
  - intros c Hin Hown _.
    assert (c0 = c) as <-.
    { apply (NoDup_fmap_eq Contact.id (contacts db)); [done..|].
      destruct Hown. congruence. }
    exists c'. split_and!; [reflexivity| |reflexivity|reflexivity| | |].
    + apply update_contact_row_elem. eauto.
    + intros ? [= <-] Ep. simpl. unfold dict_get_default. by rewrite Ep.
    + intros ? [= <-] Ee. simpl. unfold dict_get_default. by rewrite Ee.
    + intros r Hr Hne. apply update_contact_row_others; [done|].
      intros Hid. apply Hne.
      by apply (NoDup_fmap_eq Contact.id (contacts db)).
Qed.

Lemma update_frame_witness :
  let data : option payload := Some {["name" := Some "Bob B."]} in
  reachable bob_db /\
  (Contact.id <$> contacts (update_contact 1 1 data bob_db).2
   = Contact.id <$> contacts bob_db) /\
  (Contact.user_id <$> contacts (update_contact 1 1 data bob_db).2
   = Contact.user_id <$> contacts bob_db) /\
  exists c' : Contact.t,
    (update_contact 1 1 data bob_db).1
    = Jsonify (JContact (Contact.to_dict c')) 200 /\
    c' ∈ contacts (update_contact 1 1 data bob_db).2 /\
    Contact.id c' = Contact.id bob /\
    Contact.user_id c' = Contact.user_id bob /\
    (forall d, data = Some d -> d !! "phone" = None ->
               Contact.phone c' = Contact.phone bob) /\
    (forall d, data = Some d -> d !! "email" = None ->
               Contact.email c' = Contact.email bob) /\
    (forall r, r ∈ contacts bob_db -> r <> bob ->
               r ∈ contacts (update_contact 1 1 data bob_db).2).
Proof.
  intros data.
  destruct (update_frame 1 1 data bob_db bob_db_reachable) as (Hi & Ho & Hc).
  split_and!; [exact bob_db_reachable|exact Hi|exact Ho|].
  apply (Hc bob).
  - rewrite bob_db_contacts. apply list_elem_of_here.
  - split; reflexivity.
  - reflexivity.
Defined.

(** ** Login and sign-up *)

Lemma user_found db (user : User.t) :
  well_formed db -> user ∈ users db ->
  Query.first (Query.filter_by_username (User.username user) (users db))
  = Some user.
Proof.
  intros [_ _ Hn] Hin. unfold Query.filter_by_username.
  destruct (first_filter_is_Some
              (fun u => User.username u = User.username user)
              (users db) user Hin eq_refl) as [x Hx].
  rewrite Hx. f_equal.
  apply first_filter_Some in Hx as [Hxin Hxn].
  by apply (NoDup_fmap_eq User.username (users db)).
Qed.

Lemma user_not_found (username : string) (tbl : list User.t) :
  (forall u, u ∈ tbl -> User.username u <> username) ->
  Query.first (Query.filter_by_username username tbl) = None.
Proof. intros Hnone. by apply first_filter_None. Qed.

(** C8. Uniform authentication failure: a login with a wrong password for
    an existing user and a login with a username nobody has give the same
    response and leave the same session behind, whatever the passwords and
    the [next] arguments are; for a client that is not logged in, that is
    the login page with the one generic message. *)
Theorem login_failure_uniform (check_password_hash : string -> string -> bool)
  (user : User.t) (wrong_password unknown password : string)
  (next1 next2 : option string) (s : session) (db : database) :
  reachable db ->
  user ∈ users db ->
  check_password check_password_hash user wrong_password = false ->
  (forall u, u ∈ users db -> User.username u <> unknown) ->
  login check_password_hash POST (User.username user) wrong_password next1 s db
  = login check_password_hash POST unknown password next2 s db /\
  (is_authenticated s db = false ->
   login check_password_hash POST (User.username user) wrong_password next1 s db
   = (RenderTemplate "login.html",
      flash "Invalid username or password. Please try again." "danger" s)).
Proof.
  intros Hwf%reachable_well_formed Hin Hwrong Hunknown. unfold login.
  rewrite (user_found db user Hwf Hin), Hwrong.
  rewrite (user_not_found unknown (users db) Hunknown).
  split; [done|]. by intros ->.
Qed.

(** C9. [register] for a client that is not logged in.  An empty username
    or password fails and stores nothing.  A username that is taken fails
    and stores nothing; when both fields are filled in, the failure is the
    duplicate-username one.  In every other case exactly one user is added,
    with a fresh identifier, the username asked for, and as password hash
    the output of the salted hash function on the password; that is not the
    plaintext as soon as the hash function never returns its input. *)
Theorem signup_outcomes (generate_password_hash : string -> string -> string)
  (username password salt : string) (s : session) (db : database) :
  is_authenticated s db = false ->
  (username = "" \/ password = "" ->
   signup generate_password_hash POST username password salt s db
   = (Redirect "signup",
      flash "Username and password are required." "warning" s, db)) /\
  (forall u, u ∈ users db -> User.username u = username ->
   (signup generate_password_hash POST username password salt s db).2 = db /\
   (signup generate_password_hash POST username password salt s db).1.1
   = Redirect "signup" /\
   (username <> "" -> password <> "" ->
    (signup generate_password_hash POST username password salt s db).1.2
    = flash "Username already exists. Please choose a different one."
        "warning" s)) /\
  (username <> "" -> password <> "" ->
   (forall u, u ∈ users db -> User.username u <> username) ->
   exists new_user : User.t,
     signup generate_password_hash POST username password salt s db
     = (Redirect "login",
        flash "Account created successfully! Please log in." "success" s,
        {| users := users db ++ [new_user]; contacts := contacts db |}) /\
     User.username new_user = username /\
     User.password_hash new_user = generate_password_hash salt password /\
     (User.id new_user ∉ User.id <$> users db) /\
     ((forall salt' p, generate_password_hash salt' p <> p) ->
      User.password_hash new_user <> password)).
Proof.
  intros Hanon. unfold signup. rewrite Hanon. split_and!.
  - intros [-> | ->]; [done|]. by rewrite orb_true_r.
  - intros u Hin Hu.
    destruct (negb (Text.nonempty username) || negb (Text.nonempty password))
      eqn:E.
    + split_and!; [done..|].
      intros Hn Hp. by destruct username, password.
    + destruct (Query.first _) eqn:E1; [by split_and!|].
      unfold Query.filter_by_username in E1. rewrite first_filter_None in E1.
      by destruct (E1 u Hin).
  - intros Hn Hp Hfree.
    replace (negb (Text.nonempty username) || negb (Text.nonempty password))
      with false by (by destruct username, password).
    rewrite (user_not_found username (users db) Hfree).
    eexists. split_and!; [reflexivity..| |].
    + apply next_rowid_fresh.
    + intros Hgen. apply Hgen.
Qed.

Lemma alice_db_users : users alice_db = [alice].
Proof. reflexivity. Qed.

Lemma alice_db_reachable : reachable alice_db.
Proof. apply reachable_signup, reachable_init. Qed.

Lemma string_length_app (a b : string) :
  String.length (a +:+ b) = (String.length a + String.length b)%nat.
Proof. induction a as [|c a IH]; simpl; [done|by rewrite IH]. Qed.

Lemma toy_generate_not_identity (salt p : string) : toy_generate salt p <> p.
Proof.
  intros H%(f_equal String.length). unfold toy_generate in H.
  rewrite !string_length_app in H. simpl in H. lia.
Qed.

Lemma login_failure_uniform_witness :
  login toy_check POST "alice" "guess" None anonymous alice_db
  = login toy_check POST "mallory" "pw123" (Some "/") anonymous alice_db /\
  login toy_check POST "alice" "guess" None anonymous alice_db
  = (RenderTemplate "login.html",
     flash "Invalid username or password. Please try again." "danger"
       anonymous).
Proof.
  destruct (login_failure_uniform toy_check alice "guess" "mallory" "pw123"
              None (Some "/") anonymous alice_db) as [Hsame Hpage].
  - exact alice_db_reachable.
  - rewrite alice_db_users. apply list_elem_of_here.
  - reflexivity.
  - intros u Hu. rewrite alice_db_users in Hu.
    apply list_elem_of_singleton in Hu. subst u. discriminate.
  - split; [exact Hsame|]. apply Hpage. reflexivity.
Defined.

Lemma signup_outcomes_witness :
  signup toy_generate POST "" "pw" "s" anonymous alice_db
  = (Redirect "signup",
     flash "Username and password are required." "warning" anonymous,
     alice_db) /\
  ((signup toy_generate POST "alice" "other" "s" anonymous alice_db).2
   = alice_db /\
   (signup toy_generate POST "alice" "other" "s" anonymous alice_db).1.1
   = Redirect "signup" /\
   (signup toy_generate POST "alice" "other" "s" anonymous alice_db).1.2
   = flash "Username already exists. Please choose a different one."
       "warning" anonymous) /\
  exists new_user : User.t,
    signup toy_generate POST "carol" "pw" "s" anonymous alice_db
    = (Redirect "login",
       flash "Account created successfully! Please log in." "success"
         anonymous,
       {| users := users alice_db ++ [new_user];
          contacts := contacts alice_db |}) /\
    User.username new_user = "carol" /\
    User.password_hash new_user = toy_generate "s" "pw" /\
    (User.id new_user ∉ User.id <$> users alice_db) /\
    User.password_hash new_user <> "pw".
Proof.
  assert (is_authenticated anonymous alice_db = false) as Hanon
    by reflexivity.
  split; [|split].
  - apply (proj1 (signup_outcomes toy_generate "" "pw" "s" anonymous alice_db
                    Hanon)).
    left. reflexivity.
  - destruct (proj1 (proj2 (signup_outcomes toy_generate "alice" "other" "s"
                              anonymous alice_db Hanon)) alice)
      as (Hdb & Hresp & Hflash).
    + rewrite alice_db_users. apply list_elem_of_here.
    + reflexivity.
    + split; [exact Hdb|]. split; [exact Hresp|].
      apply Hflash; discriminate.
  - destruct (proj2 (proj2 (signup_outcomes toy_generate "carol" "pw" "s"
                              anonymous alice_db Hanon)))
      as (u & Heq & Hname & Hhash & Hid & Hplain).
    + discriminate.
    + discriminate.
    + intros u Hu. rewrite alice_db_users in Hu.
      apply list_elem_of_singleton in Hu. subst u. discriminate.
    + exists u. split_and!; [exact Heq|exact Hname|exact Hhash|exact Hid|].
      apply Hplain. exact toy_generate_not_identity.
Defined.

(** ** Search *)

Module TextFacts.
Import Text.




Lemma like_nil s : like "" s = negb (nonempty s).
Proof. reflexivity. Qed.











(** The substring test in words: the lowered text is the lowered term
    with something before and something after. *)
Lemma prefix_ci_spec t s :
  prefix_ci t s = true <-> exists post, lower s = lower t +:+ post.
Proof.
  revert s. induction t as [|c t IH]; intros [|d s]; simpl.
  - split; [by exists ""|done].
  - split; [by eexists|done].
  - split; [done|by intros [? ?]].
  - rewrite andb_true_iff, Ascii.eqb_eq, IH. split.
    + intros [-> [post ->]]. by exists post.
    + intros [post [= -> ->]]. eauto.
Qed.

Lemma contains_ci_spec t s :
  contains_ci t s = true
  <-> exists pre post, lower s = pre +:+ lower t +:+ post.
Proof.
  induction s as [|d s IH]; simpl.
  - rewrite orb_false_r, (prefix_ci_spec t ""). split.
    + intros [post Hp]. by exists "", post.
    + intros ([|? pre] & post & Hp); [by exists post|done].
  - rewrite orb_true_iff, (prefix_ci_spec t (String d s)), IH. split.
    + intros [[post Hp]|(pre & post & Hp)].
      * by exists "", post.
      * exists (String (lower_char d) pre), post. simpl. by rewrite Hp.
    + intros ([|c pre] & post & Hp).
      * left. by exists post.
      * right. injection Hp as _ Hp. eauto.
Qed.
End TextFacts.

#[global] Instance name_le_total : Total Query.name_le.
Proof.
  intros c1 c2. unfold Query.name_le, Query.value_le.
  destruct (Contact.name c1) as [x|], (Contact.name c2) as [y|]; auto.
  apply String.leb_total.
Qed.




(** Every list [get_contacts] answers is ordered by name. *)
Lemma get_contacts_sorted (uid : Z) (search : option string) (db : database) :
  exists rows : list Contact.t,
    get_contacts uid search db = Jsonify (JContacts (Contact.to_dict <$> rows)) 200
    /\ Sorted Query.name_le rows.
Proof.
  eexists. split; [reflexivity|]. apply Sorted_merge_sort, _.
Qed.


(** C2. The search at a term with a wildcard: for the one contact of
    [bob_db], "Bob" with phone "555-1111" and no email, a search for ["_"]
    answers that contact, although none of its fields contains ["_"]. *)
Theorem search_wildcard_not_substring :
  get_contacts 1 (Some "_") bob_db
  = Jsonify (JContacts [Contact.to_dict bob]) 200 /\
  contact_contains "_" bob = false /\
  get_contacts 1 None bob_db = Jsonify (JContacts [Contact.to_dict bob]) 200.
Proof. split_and!; reflexivity. Qed.

(** * Further properties of the routes *)

(** ** Delete *)


(** X1. Deleting an owned contact, in every reachable store: the answer is
    200 with the confirmation message; afterwards the contact is gone, a
    [get] and a second [delete] of its identifier answer 404, and the table
    holds exactly the other contacts. *)
Theorem delete_then_get (uid cid : Z) (c : Contact.t) (db : database) :
  reachable db -> c ∈ contacts db -> owned_by uid cid c ->
  (delete_contact uid cid db).1
  = Jsonify (JMessage "Contact deleted successfully") 200 /\
  get_contact uid cid (delete_contact uid cid db).2 = not_found /\
  delete_contact uid cid (delete_contact uid cid db).2
  = (not_found, (delete_contact uid cid db).2) /\
  users (delete_contact uid cid db).2 = users db /\
  (forall r, r ∈ contacts (delete_contact uid cid db).2
             <-> r ∈ contacts db /\ r <> c).
Proof.
  intros Hwf%reachable_well_formed Hin Hown.
  pose proof Hwf as [Hnd _ _]. pose proof Hown as [Hid _].
  assert (delete_contact uid cid db
          = (Jsonify (JMessage "Contact deleted successfully") 200,
             {| users := users db;
                contacts := Query.delete_contact_row c (contacts db) |}))
    as ->.
  { unfold delete_contact.
    by rewrite (owned_contact_found db c uid cid Hwf Hin Hown). }
  cbn [fst snd].
  assert (Query.first
            (Query.filter_by_id_user cid uid
               (Query.delete_contact_row c (contacts db))) = None) as Hgone.
  { apply find_owned_None. unfold Query.delete_contact_row.
    intros r [Hr _]%list_elem_of_filter [Hrid _]. congruence. }
  unfold get_contact, delete_contact. cbn [contacts users].
  rewrite Hgone. split_and!; [done..|].
  intros r. unfold Query.delete_contact_row. rewrite list_elem_of_filter.
  split.
  - intros [Hne Hr]. split; [done|]. congruence.
  - intros [Hr Hne]. split; [|done]. intros Heq. apply Hne.
    by apply (NoDup_fmap_eq Contact.id (contacts db)).
Qed.

Lemma delete_then_get_witness :
  (delete_contact 1 1 bob_db).1
  = Jsonify (JMessage "Contact deleted successfully") 200 /\
  get_contact 1 1 (delete_contact 1 1 bob_db).2 = not_found /\
  delete_contact 1 1 (delete_contact 1 1 bob_db).2
  = (not_found, (delete_contact 1 1 bob_db).2) /\
  users (delete_contact 1 1 bob_db).2 = users bob_db /\
  (forall r, r ∈ contacts (delete_contact 1 1 bob_db).2
             <-> r ∈ contacts bob_db /\ r <> bob).
Proof.
  apply (delete_then_get 1 1 bob bob_db).
  - exact bob_db_reachable.
  - rewrite bob_db_contacts. apply list_elem_of_here.
  - split; reflexivity.
Defined.



(** ** Create and update, composed with reads *)

Lemma first_filter_app_Some {A} (P : A -> Prop) `{!forall x, Decision (P x)}
  (l k : list A) (x : A) :
  Query.first (filter P l) = Some x ->
  Query.first (filter P (l ++ k)%list) = Some x.
Proof.
  unfold Query.first. rewrite filter_app. intros Hx.
  destruct (filter P l); [done|]. done.
Qed.

(** X3. A create never hides or alters what was stored: whatever the body
    and whoever creates, a [get] that found a contact before the create
    answers the same after it. *)
Theorem create_preserves_get (uid uid' cid : Z) (data : option payload)
  (db : database) :
  get_contact uid' cid db <> not_found ->
  get_contact uid' cid (add__contact uid data db).2 = get_contact uid' cid db.
Proof.
  unfold get_contact, add__contact.
  destruct data as [d|]; [|done].
  destruct (falsy_data _ || _); [done|].
  cbn [snd contacts]. unfold Query.insert_contact, Query.filter_by_id_user.
  destruct (Query.first (filter _ (contacts db))) as [c0|] eqn:E; [|done].
  intros _. by rewrite (first_filter_app_Some _ _ _ c0 E).
Qed.

Lemma create_preserves_get_witness :
  get_contact 1 1 bob_db <> not_found /\
  get_contact 1 1 (add__contact 2 (Some bob_payload) bob_db).2
  = get_contact 1 1 bob_db.
Proof.
  assert (get_contact 1 1 bob_db <> not_found) as Hfound by discriminate.
  split; [exact Hfound|].
  exact (create_preserves_get 2 1 1 (Some bob_payload) bob_db Hfound).
Defined.

Lemma update_contact_row_idem (c : Contact.t) (tbl : list Contact.t) :
  Query.update_contact_row c (Query.update_contact_row c tbl)
  = Query.update_contact_row c tbl.
Proof.
  unfold Query.update_contact_row. rewrite <- list_fmap_compose.
  apply list_fmap_ext. intros i r _. simpl.
  destruct (decide (Contact.id r = Contact.id c)) as [E|E].
  - by rewrite decide_True.
  - by rewrite decide_False.
Qed.

(** X4. [update] is idempotent: sending the same update a second time
    gives the answer and the store of the first, in every store and for
    every body, also when the answer is an error. *)
Theorem update_contact_idempotent (uid cid : Z) (data : option payload)
  (db : database) :
  update_contact uid cid data (update_contact uid cid data db).2
  = update_contact uid cid data db.
Proof.
  unfold update_contact at 2 3.
  destruct (Query.first _) as [c0|] eqn:E0.
  2:{ cbn [snd]. unfold update_contact. by rewrite E0. }
  unfold Query.filter_by_id_user in E0.
  pose proof (first_filter_Some _ _ _ E0) as [Hin0 [Hid0 Hu0]].
  destruct data as [d|].
  2:{ cbn [snd]. unfold update_contact, Query.filter_by_id_user.
      by rewrite E0. }
  destruct (falsy_data _ || _) eqn:Echeck.
  { cbn [snd]. unfold update_contact, Query.filter_by_id_user.
    by rewrite E0, Echeck. }
  set (c' := Contact.make _ _ _ _ _). cbn [snd].
  unfold update_contact. cbn [contacts users]. rewrite <- Hid0.
  change (Contact.id c0) with (Contact.id c').
  rewrite first_after_update by eauto. rewrite Echeck.
  assert (Contact.make (Contact.id c')
            (dict_get_default d "name" (Contact.name c'))
            (dict_get_default d "phone" (Contact.phone c'))
            (dict_get_default d "email" (Contact.email c'))
            (Contact.user_id c') = c') as ->.
  { unfold c', dict_get_default. simpl.
    by destruct (d !! "name"), (d !! "phone"), (d !! "email"). }
  by rewrite update_contact_row_idem.
Qed.

(** ** One owner's requests and another owner's view *)

Lemma filter_fmap_unaffected {A} (P : A -> Prop) `{!forall x, Decision (P x)}
  (f : A -> A) (l : list A) :
  (forall x, x ∈ l -> f x = x \/ (~ P (f x) /\ ~ P x)) ->
  filter P (f <$> l) = filter P l.
Proof.
  induction l as [|x l IH]; [done|]. intros Hf.
  rewrite fmap_cons.
  assert (filter P (f <$> l) = filter P l) as IH'.
  { apply IH. intros y Hy. apply Hf. by right. }
  destruct (Hf x) as [->|[Hfx Hx]]; [by left| |].
  - by rewrite !filter_cons, IH'.
  - by rewrite !filter_cons_False.
Qed.

Lemma filter_filter_unaffected {A} (P Q : A -> Prop)
  `{!forall x, Decision (P x)} `{!forall x, Decision (Q x)} (l : list A) :
  (forall x, x ∈ l -> P x -> Q x) ->
  filter P (filter Q l) = filter P l.
Proof.
  induction l as [|x l IH]; [done|]. intros HPQ.
  assert (filter P (filter Q l) = filter P l) as IH'.
  { apply IH. intros y Hy. apply HPQ. by right. }
  destruct (decide (P x)) as [HP|HP].
  - rewrite (filter_cons_True Q) by (apply HPQ; [by left|done]).
    by rewrite !filter_cons_True, IH'.
  - rewrite (filter_cons_False P x l) by done.
    destruct (decide (Q x)) as [HQ|HQ].
    + rewrite (filter_cons_True Q) by done. by rewrite filter_cons_False.
    + by rewrite (filter_cons_False Q).
Qed.

Lemma filter_by_id_user_split (cid uid : Z) (tbl : list Contact.t) :
  Query.filter_by_id_user cid uid tbl
  = filter (fun c => Contact.id c = cid) (Query.filter_by_user uid tbl).
Proof.
  unfold Query.filter_by_id_user, Query.filter_by_user.
  by rewrite list_filter_filter.
Qed.

Lemma other_owner_rows (uid uid' : Z) (r : api_request) (db : database) :
  well_formed db -> uid <> uid' ->
  Query.filter_by_user uid' (contacts (handle uid r db).2)
  = Query.filter_by_user uid' (contacts db).
Proof.
  intros [Hnd _ _] Hne.
  destruct r as [search|cid|data|cid data|cid|]; simpl; try done.
  - unfold add__contact. destruct data as [d|]; [|done].
    destruct (falsy_data _ || _); [done|]. cbn [snd contacts].
    unfold Query.insert_contact, Query.filter_by_user.
    rewrite filter_app, filter_cons_False, filter_nil, app_nil_r; done.
  - unfold update_contact.
    destruct (Query.first _) as [c0|] eqn:E0; [|done].
    unfold Query.filter_by_id_user in E0.
    apply first_filter_Some in E0 as [Hin0 [Hid0 Hu0]].
    destruct data as [d|]; [|done].
    destruct (falsy_data _ || _); [done|]. cbn [snd contacts].
    unfold Query.update_contact_row, Query.filter_by_user.
    apply filter_fmap_unaffected. intros x Hx. simpl.
    case_decide as E; [|by left]. right.
    assert (x = c0) as -> by by apply (NoDup_fmap_eq Contact.id (contacts db)).
    split; simpl; congruence.
  - unfold delete_contact.
    destruct (Query.first _) as [c0|] eqn:E0; [|done].
    unfold Query.filter_by_id_user in E0.
    apply first_filter_Some in E0 as [Hin0 [Hid0 Hu0]].
    cbn [snd contacts]. unfold Query.delete_contact_row, Query.filter_by_user.
    apply filter_filter_unaffected. intros x Hx Hux Hidx.
    assert (x = c0) as -> by by apply (NoDup_fmap_eq Contact.id (contacts db)).
    congruence.
Qed.

(** X5. No request of one user changes what another user sees: in every
    reachable store, after any contact request run for [uid], the list (for
    every search term), every single contact and the count that a different
    user [uid'] is answered are those from before the request. *)
Theorem other_owner_unaffected (uid uid' : Z) (r : api_request)
  (db : database) :
  reachable db -> uid <> uid' ->
  (forall search,
     get_contacts uid' search (handle uid r db).2 = get_contacts uid' search db)
  /\
  (forall cid,
     get_contact uid' cid (handle uid r db).2 = get_contact uid' cid db) /\
  get_contacts_count uid' (handle uid r db).2 = get_contacts_count uid' db.
Proof.
  intros Hwf%reachable_well_formed Hne.
  pose proof (other_owner_rows uid uid' r db Hwf Hne) as Hrows.
  split_and!.
  - intros search. unfold get_contacts. by rewrite Hrows.
  - intros cid. unfold get_contact.
    by rewrite !filter_by_id_user_split, Hrows.
  - unfold get_contacts_count. by rewrite Hrows.
Qed.

Lemma other_owner_unaffected_witness :
  (forall search,
     get_contacts 1 search (handle 2 (AddContact (Some bob_payload)) bob_db).2
     = get_contacts 1 search bob_db) /\
  (forall cid,
     get_contact 1 cid (handle 2 (AddContact (Some bob_payload)) bob_db).2
     = get_contact 1 cid bob_db) /\
  get_contacts_count 1 (handle 2 (AddContact (Some bob_payload)) bob_db).2
  = get_contacts_count 1 bob_db.
Proof.
  apply (other_owner_unaffected 2 1 (AddContact (Some bob_payload)) bob_db).
  - exact bob_db_reachable.
  - lia.
Defined.

(** ** Counting across create and delete *)





(** ** What every stored row satisfies *)

Lemma next_rowid_pos (ids : list Z) : 1 <= Query.next_rowid ids.
Proof.
  unfold Query.next_rowid.
  assert (0 <= foldr Z.max 0 ids) by (induction ids; simpl; lia). lia.
Qed.

Lemma name_check_truthy (d : payload) (old : value) :
  falsy_data (Some d) || negb (truthy (dict_get d "name")) = false ->
  truthy (dict_get d "name") = true /\
  dict_get_default d "name" old = dict_get d "name".
Proof.
  intros [_ Ht%negb_false_iff]%orb_false_elim. split; [done|].
  unfold dict_get, dict_get_default in *. by destruct (d !! "name").
Qed.

Lemma rows_valid_handle uid r db :
  rows_valid db -> rows_valid (handle uid r db).2.
Proof.
  intros [Hc Hu].
  destruct r as [search|cid|data|cid data|cid|]; simpl; try done.
  - unfold add__contact. destruct data as [d|]; [|done].
    destruct (falsy_data _ || _) eqn:E; [done|].
    apply (name_check_truthy d None) in E as [Ht _].
    split; [|done]. cbn [snd contacts]. unfold Query.insert_contact.
    intros c [Hin| ->%list_elem_of_singleton]%elem_of_app; [by apply Hc|].
    split; [done|apply next_rowid_pos].
  - unfold update_contact.
    destruct (Query.first _) as [c0|] eqn:E0; [|done].
    unfold Query.filter_by_id_user in E0.
    apply first_filter_Some in E0 as [Hin0 _].
    destruct data as [d|]; [|done].
    destruct (falsy_data _ || _) eqn:E; [done|].
    apply (name_check_truthy d (Contact.name c0)) in E as [Ht Hname].
    split; [|done]. cbn [snd contacts]. unfold Query.update_contact_row.
    intros c (r & -> & Hr)%list_elem_of_fmap.
    case_decide; [|by apply Hc]. simpl. rewrite Hname.
    split; [done|by apply Hc].
  - unfold delete_contact. destruct (Query.first _); [|done].
    split; [|done]. cbn [snd contacts]. unfold Query.delete_contact_row.
    intros c [_ Hin]%list_elem_of_filter. by apply Hc.
Qed.

Lemma rows_valid_signup gen m username password salt s db :
  rows_valid db -> rows_valid (signup gen m username password salt s db).2.
Proof.
  intros [Hc Hu]. unfold signup.
  destruct (is_authenticated s db); [done|].
  destruct m; [done|].
  destruct (negb _ || negb _) eqn:E; [done|].
  destruct (Query.first _); [done|].
  split; [done|]. cbn [snd users].
  intros u [Hin| ->%list_elem_of_singleton]%elem_of_app; [by apply Hu|].
  simpl. split; [|apply next_rowid_pos].
  apply orb_false_elim in E as [E _]. by destruct username.
Qed.

Lemma reachable_rows_valid_all db : reachable db -> rows_valid db.
Proof.
  induction 1.
  - split; intros ? ?%elem_of_nil; done.
  - by apply rows_valid_signup.
  - by apply rows_valid_handle.
Qed.

(** X7. What the routes keep true of the tables: in every reachable store
    contact identifiers, user identifiers and usernames are unique, every
    contact has a non-empty name, every user a non-empty username, and
    every identifier is at least 1. *)
Theorem reachable_rows_valid (db : database) :
  reachable db ->
  NoDup (Contact.id <$> contacts db) /\
  NoDup (User.id <$> users db) /\
  NoDup (User.username <$> users db) /\
  (forall c, c ∈ contacts db ->
             truthy (Contact.name c) = true /\ 1 <= Contact.id c) /\
  (forall u, u ∈ users db -> User.username u <> "" /\ 1 <= User.id u).
Proof.
  intros Hr. destruct (reachable_well_formed db Hr) as [H1 H2 H3].
  destruct (reachable_rows_valid_all db Hr) as [Hc Hu].
  by split_and!.
Qed.

Lemma reachable_rows_valid_witness :
  NoDup (Contact.id <$> contacts bob_db) /\
  NoDup (User.id <$> users bob_db) /\
  NoDup (User.username <$> users bob_db) /\
  (forall c, c ∈ contacts bob_db ->
             truthy (Contact.name c) = true /\ 1 <= Contact.id c) /\
  (forall u, u ∈ users bob_db -> User.username u <> "" /\ 1 <= User.id u).
Proof. exact (reachable_rows_valid bob_db bob_db_reachable). Defined.

(** ** Reading *)

(** X8. What a [get] answers, in every store: a 200 answer is the JSON
    form of a stored contact that has the identifier asked for and belongs
    to the caller.  In a reachable store the converse holds too: the
    caller's contact [c] is answered as it is stored. *)
Theorem get_contact_correct (uid cid : Z) (db : database) :
  (forall d : Contact.dict,
     get_contact uid cid db = Jsonify (JContact d) 200 ->
     exists c, c ∈ contacts db /\ owned_by uid cid c /\ d = Contact.to_dict c)
  /\
  (forall c, reachable db -> c ∈ contacts db -> owned_by uid cid c ->
     get_contact uid cid db = Jsonify (JContact (Contact.to_dict c)) 200).
Proof.
  unfold get_contact. split.
  - intros d. destruct (Query.first _) as [c|] eqn:E; [|done].
    unfold Query.filter_by_id_user in E.
    apply first_filter_Some in E as [Hin Hown].
    intros [= <-]. by exists c.
  - intros c Hwf%reachable_well_formed Hin Hown.
    by rewrite (owned_contact_found db c uid cid Hwf Hin Hown).
Qed.

Lemma get_contact_correct_witness :
  (exists c, c ∈ contacts bob_db /\ owned_by 1 1 c /\
             Contact.to_dict bob = Contact.to_dict c) /\
  get_contact 1 1 bob_db = Jsonify (JContact (Contact.to_dict bob)) 200.
Proof.
  destruct (get_contact_correct 1 1 bob_db) as [Hsound Hcomplete].
  split.
  - apply Hsound. reflexivity.
  - apply Hcomplete.
    + exact bob_db_reachable.
    + rewrite bob_db_contacts. apply list_elem_of_here.
    + split; reflexivity.
Defined.

(** X9. What a list answers, in every store and for every search term: the
    rows are ordered by name, each of them is a stored contact of the
    caller, and without a search term (or with an empty one) they are all
    of the caller's contacts, each as often as it is stored. *)
Theorem get_contacts_owner_only (uid : Z) (search : option string)
  (db : database) :
  exists rows : list Contact.t,
    get_contacts uid search db
    = Jsonify (JContacts (Contact.to_dict <$> rows)) 200 /\
    Sorted Query.name_le rows /\
    (forall c, c ∈ rows -> c ∈ contacts db /\ Contact.user_id c = uid) /\
    (default "" search = "" ->
     rows ≡ₚ Query.filter_by_user uid (contacts db)).
Proof.
  eexists. split; [reflexivity|]. split; [apply Sorted_merge_sort, _|].
  unfold Query.order_by_name. split.
  - intros c. rewrite merge_sort_Permutation.
    destruct (Text.nonempty _).
    + intros [_ Hc]%list_elem_of_filter. revert Hc.
      unfold Query.filter_by_user. rewrite list_elem_of_filter. tauto.
    + unfold Query.filter_by_user. rewrite list_elem_of_filter. tauto.
  - intros ->. simpl. apply merge_sort_Permutation.
Qed.

Lemma get_contacts_owner_only_witness :
  exists rows : list Contact.t,
    get_contacts 1 None bob_db
    = Jsonify (JContacts (Contact.to_dict <$> rows)) 200 /\
    Sorted Query.name_le rows /\
    (forall c, c ∈ rows -> c ∈ contacts bob_db /\ Contact.user_id c = 1) /\
    rows ≡ₚ Query.filter_by_user 1 (contacts bob_db).
Proof.
  destruct (get_contacts_owner_only 1 None bob_db)
    as (rows & Heq & Hsorted & Hown & Hall).
  exists rows. split; [exact Heq|]. split; [exact Hsorted|].
  split; [exact Hown|]. apply Hall. reflexivity.
Defined.




(** ** Sessions *)

Lemma load_user_found db (user : User.t) :
  well_formed db -> user ∈ users db ->
  load_user (User.id user) db = Some user.
Proof.
  intros [_ Hu _] Hin. unfold load_user.
  destruct (first_filter_is_Some
              (fun u => User.id u = User.id user)
              (users db) user Hin eq_refl) as [x Hx].
  rewrite Hx. f_equal.
  apply first_filter_Some in Hx as [Hxin Hxid].
  by apply (NoDup_fmap_eq User.id (users db)).
Qed.

(** X12. A login with the right password, by a client that is not logged
    in, in a reachable store: the answer is a redirect to [next] if that is
    given and not empty, to the index page otherwise; the session then
    names that user, and every API request sent with it is run for that
    user. *)
Theorem login_then_api (check_password_hash : string -> string -> bool)
  (user : User.t) (password : string) (next : option string) (s : session)
  (db : database) :
  reachable db -> user ∈ users db -> is_authenticated s db = false ->
  check_password check_password_hash user password = true ->
  login check_password_hash POST (User.username user) password next s db
  = (Redirect (if truthy next then default "" next else "index"),
     login_user user s) /\
  current_user (login_user user s) db = Some user /\
  (forall r, api r (login_user user s) db = handle (User.id user) r db).
Proof.
  intros Hwf%reachable_well_formed Hin Hanon Hok.
  assert (current_user (login_user user s) db = Some user) as Hcur
    by (by apply load_user_found).
  split_and!; [|done|].
  - unfold login. by rewrite Hanon, (user_found db user Hwf Hin), Hok.
  - intros r. unfold api, login_required. by rewrite Hcur.
Qed.

Lemma login_then_api_witness :
  login toy_check POST "alice" "pw123" None anonymous alice_db
  = (Redirect "index", login_user alice anonymous) /\
  current_user (login_user alice anonymous) alice_db = Some alice /\
  (forall r, api r (login_user alice anonymous) alice_db
             = handle 1 r alice_db).
Proof.
  apply (login_then_api toy_check alice "pw123" None anonymous alice_db).
  - exact alice_db_reachable.
  - rewrite alice_db_users. apply list_elem_of_here.
  - reflexivity.
  - reflexivity.
Defined.

(** X13. After a logout, whatever the session was, nobody is logged in:
    the answer is a redirect to the login page, and every API request sent
    with the session that is left is redirected to the login page and
    leaves the store as it is. *)
Theorem logout_then_api (s : session) (db : database) :
  (logout s db).1 = Redirect "login" /\
  current_user (logout s db).2 db = None /\
  (forall r, api r (logout s db).2 db = (Redirect "login", db)).
Proof.
  assert (current_user (logout s db).2 db = None) as Hcur.
  { unfold logout, login_required.
    destruct (current_user s db) eqn:E; [done|exact E]. }
  split_and!; [|done|].
  - unfold logout, login_required. by destruct (current_user s db).
  - intros r. unfold api, login_required. by rewrite Hcur.
Qed.

(** X14. Sign-up, then login: after a successful sign-up the new user can
    log in with the same username and password, provided the hash check
    accepts the hash that was generated for that password. *)
Theorem signup_then_login (generate_password_hash : string -> string -> string)
  (check_password_hash : string -> string -> bool)
  (username password salt : string) (next : option string)
  (s s' : session) (db : database) :
  is_authenticated s db = false ->
  username <> "" -> password <> "" ->
  (forall u, u ∈ users db -> User.username u <> username) ->
  check_password_hash (generate_password_hash salt password) password = true ->
  is_authenticated s'
    (signup generate_password_hash POST username password salt s db).2 = false ->
  exists u : User.t,
    u ∈ users (signup generate_password_hash POST username password salt s db).2
    /\ User.username u = username /\
    login check_password_hash POST username password next s'
      (signup generate_password_hash POST username password salt s db).2
    = (Redirect (if truthy next then default "" next else "index"),
       login_user u s').
Proof.
  intros Hanon Hn Hp Hfree Hok. unfold signup. rewrite Hanon.
  replace (negb (Text.nonempty username) || negb (Text.nonempty password))
    with false by (by destruct username, password).
  rewrite (user_not_found username (users db) Hfree). cbn [snd].
  set (u := User.make _ _ _). intros Hanon'. exists u.
  split; [cbn [users]; apply elem_of_app; right; apply list_elem_of_here|].
  split; [done|].
  unfold login. rewrite Hanon'. cbn [users].
  unfold Query.filter_by_username, Query.first.
  rewrite filter_app, filter_cons_True, filter_nil by done.
  replace (filter _ (users db)) with (@nil User.t).
  - simpl. unfold check_password. simpl. by rewrite Hok.
  - symmetry. apply head_None. by apply (user_not_found username).
Qed.

Lemma signup_then_login_witness :
  exists u : User.t,
    u ∈ users (signup toy_generate POST "carol" "pw" "s" anonymous alice_db).2
    /\ User.username u = "carol" /\
    login toy_check POST "carol" "pw" None anonymous
      (signup toy_generate POST "carol" "pw" "s" anonymous alice_db).2
    = (Redirect "index", login_user u anonymous).
Proof.
  apply (signup_then_login toy_generate toy_check "carol" "pw" "s" None
           anonymous anonymous alice_db).
  - reflexivity.
  - discriminate.
  - discriminate.
  - intros u Hu. rewrite alice_db_users in Hu.
    apply list_elem_of_singleton in Hu. subst u. discriminate.
  - reflexivity.
  - reflexivity.
Defined.

(** X15. Which table a route can touch: no contact request changes the
    user table; a sign-up never changes the contact table, keeps every
    user that was stored, and adds at most one. *)
Theorem tables_touched (db : database) :
  (forall uid r, users (handle uid r db).2 = users db) /\
  (forall gen m username password salt s,
     contacts (signup gen m username password salt s db).2 = contacts db /\
     exists new : list User.t,
       users (signup gen m username password salt s db).2
       = (users db ++ new)%list /\
       (length new <= 1)%nat).
Proof.
  split.
  - intros uid [search|cid|data|cid data|cid|]; simpl; try done.
    + unfold add__contact. destruct data; [|done].
      by destruct (falsy_data _ || _).
    + unfold update_contact. destruct (Query.first _); [|done].
      destruct data; [|done]. by destruct (falsy_data _ || _).
    + unfold delete_contact. by destruct (Query.first _).
  - intros gen m username password salt s. unfold signup.
    assert (exists new : list User.t,
              users db = (users db ++ new)%list /\ (length new <= 1)%nat) as Hnone
      by (exists []; rewrite app_nil_r; simpl; split; [done|lia]).
    destruct (is_authenticated s db); [done|].
    destruct m; [done|].
    destruct (negb _ || negb _); [done|].
    destruct (Query.first _); [done|].
    split; [done|]. cbn [snd users]. eexists. split; [reflexivity|simpl; lia].
Qed.
